(** * AAPLShaderTypes.h: the CPU/GPU interface of the indirect command
      buffer sample

    [Renderer/AAPLShaderTypes.h] holds no executable code: it declares one
    macro constant, two records and four enumerations that the C/Objective-C
    renderer and the Metal shaders both include.  What can be verified about
    it is what a C compiler computes from these declarations: the value of
    every enumerator and the offset, size and alignment of every field.

    The development therefore embeds
    - the C rule that numbers enumerators ([CEnum]),
    - the C rule that lays out a record ([CLayout]),
    - the object representation of a record of floats ([Memory]),
    - the declarations of the header themselves ([ShaderTypes]),
    and states the properties of the header on them. *)

From Stdlib Require Import String ZArith List Lia Bool QArith.
From coqutil Require Import Byte Word.LittleEndianList.
Import ListNotations.

Local Open Scope string_scope.
Local Open Scope list_scope.
Local Open Scope Z_scope.

(** ** Enumerations *)

Module CEnum.

(** An enumerator is a name with an optional [= constant] initializer. *)
Definition enumerator : Type := string * option Z.
Definition enum_decl : Type := list enumerator.

(** C numbers the enumerators from left to right: one with an initializer
    takes that value, one without takes the value of its predecessor plus
    one, and the first one takes 0. *)
Fixpoint values_from (next : Z) (d : enum_decl) : list (string * Z) :=
  match d with
  | [] => []
  | (x, init) :: rest =>
      let v := match init with Some k => k | None => next end in
      (x, v) :: values_from (v + 1) rest
  end.

Definition values (d : enum_decl) : list (string * Z) := values_from 0 d.

Definition names (d : enum_decl) : list string := map fst d.

Fixpoint assoc (x : string) (l : list (string * Z)) : option Z :=
  match l with
  | [] => None
  | (y, v) :: rest => if String.eqb x y then Some v else assoc x rest
  end.

(** The value of the enumerator [x] of [d], if [d] declares it. *)
Definition value_of (d : enum_decl) (x : string) : option Z :=
  assoc x (values d).

(** The numeric values of a registry, in declaration order. *)
Definition numbers (d : enum_decl) : list Z := map snd (values d).

(** No initializer anywhere in the declaration. *)
Definition implicit (d : enum_decl) : Prop :=
  Forall (fun e => snd e = None) d.

(** Z counterpart of [seq]: [count] consecutive integers from [start]. *)
Fixpoint zseq (start : Z) (count : nat) : list Z :=
  match count with
  | O => []
  | S n => start :: zseq (start + 1) n
  end.

End CEnum.

(** ** Record layout *)

Module CLayout.

(** The element types of the header's records.  They come from
    [<simd/simd.h>], a header of the platform and not of this repository:
    - [Vector n] is [vector_floatN], a SIMD vector of [n] floats;
    - [Packed n] is [packed_floatN], [n] floats stored back to back with
      the alignment of a single float;
    - [Matrix c r] is [matrix_floatCxR], declared there as
      [struct { vector_floatR columns[C]; }]: [c] columns of [r] floats. *)
Inductive ctype : Type :=
| Vector (n : nat)
| Packed (n : nat)
| Matrix (cols rows : nat).

(** How the platform stores a SIMD vector of [n] floats is not written in
    this repository, so it is a parameter of the layout: the size and the
    alignment, in bytes, of [vector_floatN]. *)
Record vector_abi : Type := {
  vec_size : nat -> Z;
  vec_align : nat -> Z
}.

(** [sizeof(float)] and [_Alignof(float)]: IEEE-754 single precision. *)
Definition float_size : Z := 4.
Definition float_align : Z := 4.

(** [x] rounded up to the next multiple of [a]. *)
Definition align_up (x a : Z) : Z := (x + a - 1) / a * a.

Definition field : Type := string * ctype.
Definition struct_decl : Type := list field.

Section Layout.

Variable abi : vector_abi.

Definition alignof (t : ctype) : Z :=
  match t with
  | Vector n => vec_align abi n
  | Packed _ => float_align
  | Matrix _ rows => vec_align abi rows
  end.

(** A matrix is a record whose only member is the array of its columns:
    its size is the size of that array, rounded up to its alignment. *)
Definition sizeof (t : ctype) : Z :=
  match t with
  | Vector n => vec_size abi n
  | Packed n => Z.of_nat n * float_size
  | Matrix cols rows =>
      align_up (Z.of_nat cols * vec_size abi rows) (vec_align abi rows)
  end.

(** Fields are placed in declaration order, each at the first offset
    after the previous field that satisfies its alignment. *)
Fixpoint offsets_from (cur : Z) (fs : struct_decl) : list (string * Z) :=
  match fs with
  | [] => []
  | (x, t) :: rest =>
      let off := align_up cur (alignof t) in
      (x, off) :: offsets_from (off + sizeof t) rest
  end.

(** The first byte after the last field. *)
Fixpoint end_from (cur : Z) (fs : struct_decl) : Z :=
  match fs with
  | [] => cur
  | (_, t) :: rest => end_from (align_up cur (alignof t) + sizeof t) rest
  end.

(** A record is as aligned as its most aligned field, and its size is
    padded at the end to a multiple of that alignment, so that the
    elements of an array of records are all aligned. *)
Definition struct_align (fs : struct_decl) : Z :=
  fold_right (fun f a => Z.max (alignof (snd f)) a) 1 fs.

Definition struct_size (fs : struct_decl) : Z :=
  align_up (end_from 0 fs) (struct_align fs).

Definition offsets (fs : struct_decl) : list (string * Z) :=
  offsets_from 0 fs.

Definition offsetof (fs : struct_decl) (x : string) : option Z :=
  CEnum.assoc x (offsets fs).

(** The bytes of a record that belong to no field. *)
Definition padding (fs : struct_decl) : Z :=
  struct_size fs - fold_right (fun f a => sizeof (snd f) + a) 0 fs.

End Layout.

Definition field_names (fs : struct_decl) : list string := map fst fs.

(** What C asks of every object type, here of the vectors: a positive
    alignment, a size that is a multiple of the alignment (the elements of
    an array lie back to back and are all aligned), and room for the
    [n] floats. *)
Definition wf_abi (abi : vector_abi) : Prop :=
  forall n,
    0 < vec_align abi n /\
    (vec_align abi n | vec_size abi n) /\
    Z.of_nat n * float_size <= vec_size abi n.

(** The vectors of [<simd/simd.h>]: a vector of [n] floats is padded to
    the next power of two elements and aligned to its size, so that
    [vector_float3] has the size and the alignment of [vector_float4].
    The header uses [n = 3] and [n = 4] only. *)
Definition simd : vector_abi := {|
  vec_size n := float_size * 2 ^ Z.log2_up (Z.of_nat n);
  vec_align n := float_size * 2 ^ Z.log2_up (Z.of_nat n)
|}.

(** A layout that gives a 3-float vector its 12 bytes of data and still
    aligns it to 16: no C type is like this, its size is not a multiple of
    its alignment. *)
Definition unpadded3 : vector_abi := {|
  vec_size n := float_size * Z.of_nat n;
  vec_align n := float_size * 2 ^ Z.log2_up (Z.of_nat n)
|}.

End CLayout.

(** ** Object representation *)

Module Memory.

Import CLayout.

(** A [float] is handled as its IEEE-754 binary32 bit pattern, a 32-bit
    integer: copying a record in and out of memory moves the bits and never
    computes with them. *)
Definition float32 : Type := Z.

Definition is_float32 (w : float32) : Prop := 0 <= w < 2 ^ 32.

(** The rational a bit pattern stands for: sign bit 31, biased exponent in
    bits 30..23, fraction in bits 22..0.  Infinities and NaNs (exponent 255)
    have none. *)
Definition b32_value (w : float32) : option Q :=
  let e := Z.land (Z.shiftr w 23) 255 in
  let f := Z.land w (2 ^ 23 - 1) in
  if e =? 255 then None
  else
    let mag :=
      if e =? 0 then (inject_Z f * Qpower 2 (-149))%Q
      else (inject_Z (2 ^ 23 + f) * Qpower 2 (e - 150))%Q in
    Some (Qred (if Z.testbit w 31 then Qopp mag else mag)).

(** Memory is a sequence of bytes; an object at offset [off] owns the bytes
    from [off] on.  Offsets are counted in bytes from the start of the
    buffer.  Writing outside of the buffer is undefined in C; the functions
    below are only used, and only specified, inside of it. *)
Definition store_bytes (off : Z) (bs m : list byte) : list byte :=
  firstn (Z.to_nat off) m ++ bs ++ skipn (Z.to_nat off + length bs) m.

Definition load_bytes (off : Z) (n : nat) (m : list byte) : list byte :=
  firstn n (skipn (Z.to_nat off) m).

(** The targets of the sample are little-endian: the least significant byte
    of a float comes first. *)
Definition store_float (off : Z) (w : float32) (m : list byte) : list byte :=
  store_bytes off (le_split 4 w) m.

Definition load_float (off : Z) (m : list byte) : float32 :=
  le_combine (load_bytes off 4 m).

(** The elements of a vector lie back to back from its start; what is left
    of its size is padding and is not touched. *)
Fixpoint store_vec (off : Z) (xs : list float32) (m : list byte) : list byte :=
  match xs with
  | [] => m
  | x :: rest => store_vec (off + float_size) rest (store_float off x m)
  end.

Fixpoint load_vec (off : Z) (n : nat) (m : list byte) : list float32 :=
  match n with
  | O => []
  | S k => load_float off m :: load_vec (off + float_size) k m
  end.

(** The columns of a matrix are the elements of an array of vectors:
    column [j] starts [j] vector sizes ([stride]) after the first. *)
Fixpoint store_cols (stride off : Z) (cols : list (list float32))
    (m : list byte) : list byte :=
  match cols with
  | [] => m
  | c :: rest => store_cols stride (off + stride) rest (store_vec off c m)
  end.

Fixpoint load_cols (stride off : Z) (c r : nat) (m : list byte)
    : list (list float32) :=
  match c with
  | O => []
  | S k => load_vec off r m :: load_cols stride (off + stride) k r m
  end.

(** The value of a field: the floats of a vector, or the columns of a
    matrix. *)
Inductive value : Type :=
| VVec (xs : list float32)
| VMat (cols : list (list float32)).

Definition has_type (t : ctype) (v : value) : Prop :=
  match t, v with
  | Vector n, VVec xs | Packed n, VVec xs =>
      length xs = n /\ Forall is_float32 xs
  | Matrix c r, VMat cols =>
      length cols = c /\
      Forall (fun col => length col = r /\ Forall is_float32 col) cols
  | _, _ => False
  end.

Section Access.

Variable abi : vector_abi.

Definition store_value (t : ctype) (off : Z) (v : value) (m : list byte)
    : list byte :=
  match t, v with
  | Vector _, VVec xs | Packed _, VVec xs => store_vec off xs m
  | Matrix _ r, VMat cols => store_cols (vec_size abi r) off cols m
  | _, _ => m
  end.

Definition load_value (t : ctype) (off : Z) (m : list byte) : value :=
  match t with
  | Vector n | Packed n => VVec (load_vec off n m)
  | Matrix c r => VMat (load_cols (vec_size abi r) off c r m)
  end.

(** A record is written and read field by field, each field at the offset
    the layout gives it (the recursion is the one of [offsets_from]). *)
Fixpoint store_fields (cur : Z) (fs : struct_decl) (vs : list value)
    (m : list byte) : list byte :=
  match fs, vs with
  | (_, t) :: rest, v :: vs' =>
      let off := align_up cur (alignof abi t) in
      store_fields (off + sizeof abi t) rest vs' (store_value t off v m)
  | _, _ => m
  end.

Fixpoint load_fields (cur : Z) (fs : struct_decl) (m : list byte)
    : list value :=
  match fs with
  | [] => []
  | (_, t) :: rest =>
      let off := align_up cur (alignof abi t) in
      load_value t off m :: load_fields (off + sizeof abi t) rest m
  end.

Definition store_struct (fs : struct_decl) (vs : list value) (m : list byte)
    : list byte :=
  store_fields 0 fs vs m.

Definition load_struct (fs : struct_decl) (m : list byte) : list value :=
  load_fields 0 fs m.

End Access.

(** Two memories of the same length that differ at most on the bytes
    [lo <= i < hi]. *)
Definition same_outside (lo hi : Z) (m m' : list byte) : Prop :=
  length m = length m' /\
  forall i : nat,
    Z.of_nat i < lo \/ hi <= Z.of_nat i -> nth_error m i = nth_error m' i.

End Memory.

(** ** The declarations of AAPLShaderTypes.h *)

Module ShaderTypes.

Import CEnum CLayout Memory.

(** [#define AAPLNumShapes 16] *)
Definition AAPLNumShapes : Z := 16.

(** The types the header takes from [<simd/simd.h>]. *)
Definition vector_float3 : ctype := Vector 3.
Definition packed_float2 : ctype := Packed 2.
Definition matrix_float4x4 : ctype := Matrix 4 4.
Definition matrix_float3x3 : ctype := Matrix 3 3.

(** [typedef struct { vector_float3 position; packed_float2 texcoord; }
    AAPLVertex;] *)
Definition AAPLVertex : struct_decl :=
  [ ("position", vector_float3);
    ("texcoord", packed_float2) ].

(** [typedef enum AAPLBufferIndex { AAPLBufferIndexVertices = 0,
    AAPLBufferIndexUniforms = 1, } AAPLBufferIndex;] *)
Definition AAPLBufferIndex : enum_decl :=
  [ ("AAPLBufferIndexVertices", Some 0);
    ("AAPLBufferIndexUniforms", Some 1) ].

(** [typedef enum AAPLTextureIndex { AAPLTextureIndexBaseColor = 0, }
    AAPLTextureIndex;] *)
Definition AAPLTextureIndex : enum_decl :=
  [ ("AAPLTextureIndexBaseColor", Some 0) ].

(** [typedef struct { vector_float3 cameraPos; matrix_float4x4 modelMatrix;
    matrix_float4x4 modelViewProjectionMatrix; matrix_float3x3
    normalMatrix; } AAPLUniforms;] *)
Definition AAPLUniforms : struct_decl :=
  [ ("cameraPos", vector_float3);
    ("modelMatrix", matrix_float4x4);
    ("modelViewProjectionMatrix", matrix_float4x4);
    ("normalMatrix", matrix_float3x3) ].

(** [typedef enum AAPLArgumentBufferBufferID { AAPLArgumentBufferIDICB,
    AAPLArgumentBufferIDUniformBuffer, AAPLArgumentBufferIDDepth,
    AAPLArgumentBufferIDVertexBuffer,
    AAPLArgumentBufferIDVertexNumBuffer = 50 }
    AAPLArgumentBufferBufferID;] *)
Definition AAPLArgumentBufferBufferID : enum_decl :=
  [ ("AAPLArgumentBufferIDICB", None);
    ("AAPLArgumentBufferIDUniformBuffer", None);
    ("AAPLArgumentBufferIDDepth", None);
    ("AAPLArgumentBufferIDVertexBuffer", None);
    ("AAPLArgumentBufferIDVertexNumBuffer", Some 50) ].

(** [typedef enum AAPLVertexBufferIndex { AAPLVertexBufferIndexArgument }
    AAPLVertexBufferIndex;] *)
Definition AAPLVertexBufferIndex : enum_decl :=
  [ ("AAPLVertexBufferIndexArgument", None) ].

(** The four binding registries of the header. *)
Definition registries : list enum_decl :=
  [ AAPLBufferIndex; AAPLTextureIndex;
    AAPLArgumentBufferBufferID; AAPLVertexBufferIndex ].

(** *** Values of the two records *)

Definition float2 : Type := float32 * float32.
Definition float3 : Type := float32 * float32 * float32.
Definition float4 : Type := float32 * float32 * float32 * float32.
Definition float3x3 : Type := float3 * float3 * float3.
Definition float4x4 : Type := float4 * float4 * float4 * float4.

(** An [AAPLVertex] object. *)
Record vertex : Type := {
  position : float3;
  texcoord : float2
}.

(** An [AAPLUniforms] object. *)
Record uniforms : Type := {
  cameraPos : float3;
  modelMatrix : float4x4;
  modelViewProjectionMatrix : float4x4;
  normalMatrix : float3x3
}.

Definition list2 (v : float2) : list float32 := let '(x, y) := v in [x; y].
Definition list3 (v : float3) : list float32 :=
  let '(x, y, z) := v in [x; y; z].
Definition list4 (v : float4) : list float32 :=
  let '(x, y, z, w) := v in [x; y; z; w].

Definition cols3 (a : float3x3) : list (list float32) :=
  let '(c0, c1, c2) := a in [list3 c0; list3 c1; list3 c2].
Definition cols4 (a : float4x4) : list (list float32) :=
  let '(c0, c1, c2, c3) := a in [list4 c0; list4 c1; list4 c2; list4 c3].

Definition to_float2 (l : list float32) : option float2 :=
  match l with [x; y] => Some (x, y) | _ => None end.
Definition to_float3 (l : list float32) : option float3 :=
  match l with [x; y; z] => Some (x, y, z) | _ => None end.
Definition to_float4 (l : list float32) : option float4 :=
  match l with [x; y; z; w] => Some (x, y, z, w) | _ => None end.

Definition bind {A B : Type} (o : option A) (k : A -> option B) : option B :=
  match o with Some a => k a | None => None end.

Definition to_float3x3 (l : list (list float32)) : option float3x3 :=
  match l with
  | [c0; c1; c2] =>
      bind (to_float3 c0) (fun a => bind (to_float3 c1) (fun b =>
      bind (to_float3 c2) (fun c => Some (a, b, c))))
  | _ => None
  end.

Definition to_float4x4 (l : list (list float32)) : option float4x4 :=
  match l with
  | [c0; c1; c2; c3] =>
      bind (to_float4 c0) (fun a => bind (to_float4 c1) (fun b =>
      bind (to_float4 c2) (fun c => bind (to_float4 c3) (fun d =>
      Some (a, b, c, d)))))
  | _ => None
  end.

Definition vec_of (v : value) : list float32 :=
  match v with VVec xs => xs | VMat _ => [] end.
Definition mat_of (v : value) : list (list float32) :=
  match v with VMat cols => cols | VVec _ => [] end.

(** The fields of a record, in the order of its declaration. *)
Definition vertex_fields (v : vertex) : list value :=
  [ VVec (list3 (position v)); VVec (list2 (texcoord v)) ].

Definition uniforms_fields (u : uniforms) : list value :=
  [ VVec (list3 (cameraPos u));
    VMat (cols4 (modelMatrix u));
    VMat (cols4 (modelViewProjectionMatrix u));
    VMat (cols3 (normalMatrix u)) ].

Definition vertex_of_fields (l : list value) : option vertex :=
  match l with
  | [p; t] =>
      bind (to_float3 (vec_of p)) (fun p' =>
      bind (to_float2 (vec_of t)) (fun t' =>
      Some {| position := p'; texcoord := t' |}))
  | _ => None
  end.

Definition uniforms_of_fields (l : list value) : option uniforms :=
  match l with
  | [c; m; mvp; n] =>
      bind (to_float3 (vec_of c)) (fun c' =>
      bind (to_float4x4 (mat_of m)) (fun m' =>
      bind (to_float4x4 (mat_of mvp)) (fun mvp' =>
      bind (to_float3x3 (mat_of n)) (fun n' =>
      Some {| cameraPos := c'; modelMatrix := m';
              modelViewProjectionMatrix := mvp'; normalMatrix := n' |}))))
  | _ => None
  end.

Section Serialize.

Variable abi : vector_abi.

(** Writing a record into the bytes [m] of an object of its type, and
    reading those bytes as a record again. *)
Definition write_vertex (v : vertex) (m : list byte) : list byte :=
  store_struct abi AAPLVertex (vertex_fields v) m.

Definition read_vertex (m : list byte) : option vertex :=
  vertex_of_fields (load_struct abi AAPLVertex m).

Definition write_uniforms (u : uniforms) (m : list byte) : list byte :=
  store_struct abi AAPLUniforms (uniforms_fields u) m.

Definition read_uniforms (m : list byte) : option uniforms :=
  uniforms_of_fields (load_struct abi AAPLUniforms m).

(** The byte representation of a record: an object of the size of the
    record whose padding bytes, which C leaves unspecified, are [pad]. *)
Definition vertex_bytes (pad : byte) (v : vertex) : list byte :=
  write_vertex v (repeat pad (Z.to_nat (struct_size abi AAPLVertex))).

Definition uniforms_bytes (pad : byte) (u : uniforms) : list byte :=
  write_uniforms u (repeat pad (Z.to_nat (struct_size abi AAPLUniforms))).

End Serialize.

Definition float2_ok (v : float2) : Prop := Forall is_float32 (list2 v).
Definition float3_ok (v : float3) : Prop := Forall is_float32 (list3 v).
Definition float4_ok (v : float4) : Prop := Forall is_float32 (list4 v).

Definition float3x3_ok (a : float3x3) : Prop :=
  Forall (Forall is_float32) (cols3 a).
Definition float4x4_ok (a : float4x4) : Prop :=
  Forall (Forall is_float32) (cols4 a).

(** Every float of the record is a 32-bit pattern. *)
Definition vertex_ok (v : vertex) : Prop :=
  float3_ok (position v) /\ float2_ok (texcoord v).

Definition uniforms_ok (u : uniforms) : Prop :=
  float3_ok (cameraPos u) /\
  float4x4_ok (modelMatrix u) /\
  float4x4_ok (modelViewProjectionMatrix u) /\
  float3x3_ok (normalMatrix u).

(** Bit patterns of the floats used below. *)
Definition f_0 : float32 := 0x00000000.
Definition f_1 : float32 := 0x3F800000.
Definition f_2 : float32 := 0x40000000.
Definition f_3 : float32 := 0x40400000.
Definition f_0_25 : float32 := 0x3E800000.
Definition f_0_75 : float32 := 0x3F400000.

(** The vertex with position (1, 2, 3) and texcoord (0.25, 0.75). *)
Definition vertex_123 : vertex :=
  {| position := (f_1, f_2, f_3); texcoord := (f_0_25, f_0_75) |}.

Definition identity3 : float3x3 :=
  ((f_1, f_0, f_0), (f_0, f_1, f_0), (f_0, f_0, f_1)).

Definition identity4 : float4x4 :=
  ((f_1, f_0, f_0, f_0), (f_0, f_1, f_0, f_0),
   (f_0, f_0, f_1, f_0), (f_0, f_0, f_0, f_1)).

(** The uniforms with the camera at the origin and identity matrices. *)
Definition uniforms_identity : uniforms :=
  {| cameraPos := (f_0, f_0, f_0);
     modelMatrix := identity4;
     modelViewProjectionMatrix := identity4;
     normalMatrix := identity3 |}.

End ShaderTypes.

(** ** Members and array elements *)

Module Objects.

Import CEnum CLayout Memory.

(** The declared type of the field [x]. *)
Fixpoint type_of (fs : struct_decl) (x : string) : option ctype :=
  match fs with
  | [] => None
  | (y, t) :: rest => if String.eqb x y then Some t else type_of rest x
  end.

Section Access.

Variable abi : vector_abi.

(** [p->x = v]: the value goes to the offset of the field; a name that the
    record does not declare does not compile, and writes nothing here. *)
Definition store_field (fs : struct_decl) (x : string) (v : value)
    (m : list byte) : list byte :=
  match offsetof abi fs x, type_of fs x with
  | Some off, Some t => store_value abi t off v m
  | _, _ => m
  end.

(** [p->x] *)
Definition load_field (fs : struct_decl) (x : string) (m : list byte)
    : option value :=
  match offsetof abi fs x, type_of fs x with
  | Some off, Some t => Some (load_value abi t off m)
  | _, _ => None
  end.

(** The elements of an array of records lie back to back: element [i]
    starts [i] record sizes after the first. *)
Definition elem_offset (fs : struct_decl) (i : nat) : Z :=
  Z.of_nat i * struct_size abi fs.

(** The bytes of [a[i]]. *)
Definition get_elem (fs : struct_decl) (i : nat) (m : list byte)
    : list byte :=
  load_bytes (elem_offset fs i) (Z.to_nat (struct_size abi fs)) m.

(** [a[i] = r] for a record [r] with the fields [vs], and reading [a[i]]
    as a record. *)
Definition set_elem (fs : struct_decl) (i : nat) (vs : list value)
    (m : list byte) : list byte :=
  store_bytes (elem_offset fs i) (store_struct abi fs vs (get_elem fs i m)) m.

Definition read_elem (fs : struct_decl) (i : nat) (m : list byte)
    : list value :=
  load_struct abi fs (get_elem fs i m).

End Access.

End Objects.

(** ** Buffers of records *)

Module Buffers.

Import CLayout Memory ShaderTypes.


(** A vertex buffer: the byte representations of the vertices, one after
    the other (an array of [AAPLVertex]). *)
Definition vertex_buffer (abi : vector_abi) (pad : byte) (vs : list vertex)
    : list byte :=
  concat (map (vertex_bytes abi pad) vs).

End Buffers.

(** * Properties *)

(** ** The numbering of enumerators *)

Module CEnumFacts.

Import CEnum.

Lemma names_values_from (d : enum_decl) :
  forall next, map fst (values_from next d) = names d.
Proof.
  induction d as [|[x init] rest IH]; intros next; simpl.
  - reflexivity.
  - now rewrite IH.
Qed.

Lemma length_numbers (d : enum_decl) : length (numbers d) = length d.
Proof.
  unfold numbers, values. rewrite length_map.
  rewrite <- (length_map fst), names_values_from. apply length_map.
Qed.

(** Enumerators without initializers are numbered consecutively. *)
Lemma implicit_values_from (d : enum_decl) :
  implicit d ->
  forall next, map snd (values_from next d) = zseq next (length d).
Proof.
  induction 1 as [|[x init] rest Hx _ IH]; intros next; simpl in *.
  - reflexivity.
  - subst init. now rewrite IH.
Qed.

(** A run without initializers in front of a declaration starts at 0 and
    whatever follows it starts its own numbering after the run. *)
Lemma values_from_app (d1 d2 : enum_decl) :
  implicit d1 ->
  forall next,
    values_from next (d1 ++ d2)
    = values_from next d1 ++ values_from (next + Z.of_nat (length d1)) d2.
Proof.
  induction 1 as [|[x init] rest Hx _ IH]; intros next; simpl in *.
  - now rewrite Z.add_0_r.
  - subst init. rewrite IH. do 3 f_equal. lia.
Qed.

Lemma in_zseq (count : nat) :
  forall start v, In v (zseq start count) <-> start <= v < start + Z.of_nat count.
Proof.
  induction count as [|n IH]; intros start v; simpl zseq.
  - simpl. lia.
  - simpl In. rewrite IH. lia.
Qed.

Lemma NoDup_zseq (count : nat) : forall start, NoDup (zseq start count).
Proof.
  induction count as [|n IH]; intros start; simpl; constructor.
  - rewrite in_zseq. lia.
  - apply IH.
Qed.

End CEnumFacts.

(** ** The layout of records *)

Module CLayoutFacts.

Import CLayout.

Lemma align_up_ge (x a : Z) : 0 < a -> x <= align_up x a.
Proof.
  intros Ha. unfold align_up.
  pose proof (Z.div_mod (x + a - 1) a ltac:(lia)) as E.
  pose proof (Z.mod_pos_bound (x + a - 1) a Ha) as B.
  lia.
Qed.

Lemma align_up_lt (x a : Z) : 0 < a -> align_up x a < x + a.
Proof.
  intros Ha. unfold align_up.
  pose proof (Z.div_mod (x + a - 1) a ltac:(lia)) as E.
  pose proof (Z.mod_pos_bound (x + a - 1) a Ha) as B.
  lia.
Qed.

Lemma align_up_divide (x a : Z) : (a | align_up x a).
Proof. unfold align_up. apply Z.divide_factor_r. Qed.

Lemma align_up_multiple (k a : Z) : 0 < a -> align_up (k * a) a = k * a.
Proof.
  intros Ha. unfold align_up.
  replace (k * a + a - 1) with ((a - 1) + k * a) by lia.
  rewrite Z.div_add by lia. rewrite Z.div_small by lia. lia.
Qed.

Lemma align_up_aligned (x a : Z) : 0 < a -> (a | x) -> align_up x a = x.
Proof.
  intros Ha [k ->]. now apply align_up_multiple.
Qed.

Lemma simd_wf : wf_abi simd.
Proof.
  intros n. unfold simd, vec_align, vec_size, float_size.
  assert (Hpow : Z.of_nat n <= 2 ^ Z.log2_up (Z.of_nat n)).
  { destruct (Z_le_gt_dec (Z.of_nat n) 1) as [Hle|Hgt].
    - pose proof (Z.log2_up_nonneg (Z.of_nat n)) as Hl.
      pose proof (Z.pow_pos_nonneg 2 _ ltac:(lia) Hl). lia.
    - apply Z.log2_up_spec. lia. }
  pose proof (Z.pow_pos_nonneg 2 _ ltac:(lia)
                (Z.log2_up_nonneg (Z.of_nat n))) as Hpos.
  repeat split; try lia. apply Z.divide_refl.
Qed.

Section WellFormed.

Variable abi : vector_abi.
Hypothesis Habi : wf_abi abi.

Lemma alignof_pos (t : ctype) : 0 < alignof abi t.
Proof.
  destruct t as [n|n|c r]; simpl; unfold float_align;
    try apply (Habi _); lia.
Qed.

(** The columns of a matrix fit in its size. *)
Lemma matrix_columns_fit (c r : nat) :
  Z.of_nat c * vec_size abi r <= sizeof abi (Matrix c r).
Proof. simpl. apply align_up_ge, (Habi r). Qed.

(** The array of the columns needs no padding: the size of a vector is a
    multiple of its alignment. *)
Lemma sizeof_matrix (c r : nat) :
  sizeof abi (Matrix c r) = Z.of_nat c * vec_size abi r.
Proof.
  simpl. destruct (Habi r) as (Hpos & Hdiv & _).
  apply align_up_aligned; [assumption|]. now apply Z.divide_mul_r.
Qed.

Lemma sizeof_nonneg (t : ctype) : 0 <= sizeof abi t.
Proof.
  destruct t as [n|n|c r].
  - simpl. destruct (Habi n) as (_ & _ & H). unfold float_size in H. lia.
  - simpl. unfold float_size. lia.
  - rewrite sizeof_matrix. destruct (Habi r) as (_ & _ & H).
    unfold float_size in H. nia.
Qed.

Lemma end_from_ge (fs : struct_decl) :
  forall cur, cur <= end_from abi cur fs.
Proof.
  induction fs as [|[x t] rest IH]; intros cur; simpl.
  - lia.
  - pose proof (align_up_ge cur _ (alignof_pos t)).
    pose proof (sizeof_nonneg t).
    etransitivity; [|apply IH]. lia.
Qed.

(** Every field starts at or after the cursor it is placed from and ends
    before the end of the fields: fields lie in declaration order and do not
    overlap. *)
Lemma offsets_from_bounds (fs : struct_decl) :
  forall cur x off,
    In (x, off) (offsets_from abi cur fs) -> cur <= off <= end_from abi cur fs.
Proof.
  induction fs as [|[y t] rest IH]; intros cur x off; simpl.
  - contradiction.
  - pose proof (align_up_ge cur _ (alignof_pos t)) as Hge.
    pose proof (sizeof_nonneg t) as Hsz.
    intros [E|Hin].
    + injection E as _ <-. split; [assumption|].
      etransitivity; [|apply end_from_ge]. lia.
    + apply IH in Hin. lia.
Qed.

Lemma struct_align_pos (fs : struct_decl) : 0 < struct_align abi fs.
Proof. induction fs as [|[x t] rest IH]; simpl; lia. Qed.

Lemma struct_size_ge_end (fs : struct_decl) :
  end_from abi 0 fs <= struct_size abi fs.
Proof. apply align_up_ge, struct_align_pos. Qed.

End WellFormed.

End CLayoutFacts.

(** ** Reading back what was written *)

Module MemoryFacts.

Import CLayout CLayoutFacts Memory.

Lemma same_outside_refl (lo hi : Z) (m : list byte) : same_outside lo hi m m.
Proof. split; auto. Qed.

Lemma same_outside_trans (lo hi : Z) (m1 m2 m3 : list byte) :
  same_outside lo hi m1 m2 -> same_outside lo hi m2 m3 ->
  same_outside lo hi m1 m3.
Proof.
  intros [L12 H12] [L23 H23]. split; [congruence|].
  intros i Hi. now rewrite H12, H23.
Qed.

Lemma same_outside_weaken (lo hi lo' hi' : Z) (m m' : list byte) :
  lo' <= lo -> hi <= hi' ->
  same_outside lo hi m m' -> same_outside lo' hi' m m'.
Proof.
  intros Hlo Hhi [L H]. split; [assumption|].
  intros i Hi. apply H. lia.
Qed.

(** *** Bytes *)

Lemma length_store_bytes (off : Z) (bs m : list byte) :
  0 <= off -> off + Z.of_nat (length bs) <= Z.of_nat (length m) ->
  length (store_bytes off bs m) = length m.
Proof.
  intros H0 Hin. unfold store_bytes.
  rewrite !length_app, length_firstn, length_skipn. lia.
Qed.

Lemma store_bytes_outside (off : Z) (bs m : list byte) :
  0 <= off -> off + Z.of_nat (length bs) <= Z.of_nat (length m) ->
  same_outside off (off + Z.of_nat (length bs)) m (store_bytes off bs m).
Proof.
  intros H0 Hin. split.
  - symmetry. now apply length_store_bytes.
  - intros i Hi. unfold store_bytes.
    assert (Hlen : length (firstn (Z.to_nat off) m) = Z.to_nat off)
      by (rewrite length_firstn; lia).
    destruct Hi as [Hlt|Hge].
    + rewrite nth_error_app1 by lia.
      rewrite nth_error_firstn.
      destruct (Nat.ltb_spec i (Z.to_nat off)); [reflexivity|lia].
    + rewrite nth_error_app2 by lia.
      rewrite nth_error_app2 by lia.
      rewrite nth_error_skipn. f_equal. lia.
Qed.

Lemma load_bytes_store_bytes (off : Z) (bs m : list byte) :
  0 <= off -> off + Z.of_nat (length bs) <= Z.of_nat (length m) ->
  load_bytes off (length bs) (store_bytes off bs m) = bs.
Proof.
  intros H0 Hin. unfold load_bytes, store_bytes.
  assert (Hlen : length (firstn (Z.to_nat off) m) = Z.to_nat off)
    by (rewrite length_firstn; lia).
  rewrite skipn_app, Hlen, Nat.sub_diag.
  rewrite skipn_all2 by lia. simpl.
  rewrite firstn_app, firstn_all, Nat.sub_diag. simpl.
  apply app_nil_r.
Qed.

Lemma load_bytes_outside (lo hi : Z) (m m' : list byte) (off : Z) (n : nat) :
  same_outside lo hi m m' ->
  0 <= off -> off + Z.of_nat n <= lo \/ hi <= off ->
  load_bytes off n m = load_bytes off n m'.
Proof.
  intros [_ H] H0 Hdisj. unfold load_bytes.
  apply nth_error_ext. intros i.
  rewrite !nth_error_firstn, !nth_error_skipn.
  destruct (Nat.ltb_spec i n); [|reflexivity].
  apply H. lia.
Qed.

(** *** Floats *)

Lemma store_float_outside (off : Z) (w : float32) (m : list byte) :
  0 <= off -> off + float_size <= Z.of_nat (length m) ->
  same_outside off (off + float_size) m (store_float off w m).
Proof.
  intros H0 Hin. unfold store_float.
  pose proof (store_bytes_outside off (le_split 4 w) m) as H.
  rewrite length_le_split in H. apply H; assumption.
Qed.

Lemma load_float_store_float (off : Z) (w : float32) (m : list byte) :
  0 <= off -> off + float_size <= Z.of_nat (length m) ->
  is_float32 w ->
  load_float off (store_float off w m) = w.
Proof.
  intros H0 Hin Hw. unfold load_float, store_float.
  pose proof (load_bytes_store_bytes off (le_split 4 w) m) as H.
  rewrite length_le_split in H. rewrite H by assumption.
  rewrite le_combine_split. apply Z.mod_small. exact Hw.
Qed.

Lemma load_float_outside (lo hi : Z) (m m' : list byte) (off : Z) :
  same_outside lo hi m m' ->
  0 <= off -> off + float_size <= lo \/ hi <= off ->
  load_float off m = load_float off m'.
Proof.
  intros H H0 Hdisj. unfold load_float.
  now rewrite (load_bytes_outside lo hi m m').
Qed.

(** *** Vectors *)

Lemma store_vec_outside (xs : list float32) :
  forall off m,
    0 <= off ->
    off + float_size * Z.of_nat (length xs) <= Z.of_nat (length m) ->
    same_outside off (off + float_size * Z.of_nat (length xs))
      m (store_vec off xs m).
Proof.
  unfold float_size.
  induction xs as [|x rest IH]; intros off m H0 Hin; simpl store_vec.
  - apply same_outside_refl.
  - simpl length in *.
    pose proof (store_float_outside off x m H0) as Hx.
    unfold float_size in Hx. specialize (Hx ltac:(lia)).
    eapply same_outside_trans.
    + eapply same_outside_weaken; [| |exact Hx]; lia.
    + destruct Hx as [L _].
      eapply same_outside_weaken; [| |apply IH]; unfold float_size; lia.
Qed.

Lemma load_vec_outside (lo hi : Z) (m m' : list byte) (n : nat) :
  same_outside lo hi m m' ->
  forall off,
    0 <= off -> off + float_size * Z.of_nat n <= lo \/ hi <= off ->
    load_vec off n m = load_vec off n m'.
Proof.
  unfold float_size. intros H.
  induction n as [|k IH]; intros off H0 Hdisj; simpl load_vec.
  - reflexivity.
  - f_equal.
    + apply (load_float_outside lo hi); unfold float_size; auto; lia.
    + apply IH; unfold float_size; lia.
Qed.

Lemma load_vec_store_vec (xs : list float32) :
  forall off m,
    0 <= off ->
    off + float_size * Z.of_nat (length xs) <= Z.of_nat (length m) ->
    Forall is_float32 xs ->
    load_vec off (length xs) (store_vec off xs m) = xs.
Proof.
  induction xs as [|x rest IH]; intros off m H0 Hin Hxs;
    simpl store_vec; simpl load_vec.
  - reflexivity.
  - inversion_clear Hxs as [|? ? Hx Hrest].
    simpl length in Hin. unfold float_size in *.
    pose proof (store_float_outside off x m H0) as Hout.
    unfold float_size in Hout. specialize (Hout ltac:(lia)).
    destruct Hout as [L _].
    f_equal.
    + rewrite <- (load_float_outside (off + 4)
                   (off + 4 + float_size * Z.of_nat (length rest))
                   (store_float off x m)).
      * apply load_float_store_float; unfold float_size; auto; lia.
      * apply store_vec_outside; unfold float_size; lia.
      * assumption.
      * unfold float_size. lia.
    + apply IH; unfold float_size; auto; lia.
Qed.

(** *** Matrices *)

Lemma store_cols_outside (stride : Z) (cols : list (list float32)) :
  Forall (fun col => float_size * Z.of_nat (length col) <= stride) cols ->
  forall off m,
    0 <= off ->
    off + stride * Z.of_nat (length cols) <= Z.of_nat (length m) ->
    same_outside off (off + stride * Z.of_nat (length cols))
      m (store_cols stride off cols m).
Proof.
  unfold float_size.
  induction 1 as [|c rest Hc _ IH]; intros off m H0 Hin; simpl store_cols.
  - apply same_outside_refl.
  - simpl length in *.
    pose proof (store_vec_outside c off m H0) as Hv.
    unfold float_size in Hv. specialize (Hv ltac:(nia)).
    eapply same_outside_trans.
    + eapply same_outside_weaken; [| |exact Hv]; nia.
    + destruct Hv as [L _].
      eapply same_outside_weaken; [| |apply IH]; nia.
Qed.

Lemma load_cols_outside (lo hi : Z) (m m' : list byte) (stride : Z)
    (c r : nat) :
  same_outside lo hi m m' ->
  float_size * Z.of_nat r <= stride ->
  forall off,
    0 <= off -> off + stride * Z.of_nat c <= lo \/ hi <= off ->
    load_cols stride off c r m = load_cols stride off c r m'.
Proof.
  unfold float_size. intros H Hr.
  induction c as [|k IH]; intros off H0 Hdisj; simpl load_cols.
  - reflexivity.
  - f_equal.
    + apply (load_vec_outside lo hi); unfold float_size; auto; nia.
    + apply IH; nia.
Qed.

Lemma load_cols_store_cols (stride : Z) (r : nat)
    (cols : list (list float32)) :
  float_size * Z.of_nat r <= stride ->
  Forall (fun col => length col = r /\ Forall is_float32 col) cols ->
  forall off m,
    0 <= off ->
    off + stride * Z.of_nat (length cols) <= Z.of_nat (length m) ->
    load_cols stride off (length cols) r (store_cols stride off cols m) = cols.
Proof.
  unfold float_size. intros Hr.
  induction 1 as [|c rest [Hlen Hc] Hrest IH]; intros off m H0 Hin;
    simpl store_cols; simpl load_cols.
  - reflexivity.
  - simpl length in Hin.
    pose proof (store_vec_outside c off m H0) as Hv.
    unfold float_size in Hv. rewrite Hlen in Hv.
    specialize (Hv ltac:(nia)). destruct Hv as [L _].
    f_equal.
    + rewrite <- (load_vec_outside (off + stride)
                   (off + stride + stride * Z.of_nat (length rest))
                   (store_vec off c m)).
      * rewrite <- Hlen. apply load_vec_store_vec; auto.
        unfold float_size. rewrite Hlen. nia.
      * apply store_cols_outside; [|nia|nia].
        eapply Forall_impl; [|exact Hrest].
        intros col [E _]. unfold float_size. rewrite E. exact Hr.
      * assumption.
      * unfold float_size. lia.
    + apply IH; nia.
Qed.

(** *** Fields and records *)

Section WellFormed.

Variable abi : vector_abi.
Hypothesis Habi : wf_abi abi.

Lemma store_value_outside (t : ctype) (v : value) (off : Z) (m : list byte) :
  has_type t v ->
  0 <= off -> off + sizeof abi t <= Z.of_nat (length m) ->
  same_outside off (off + sizeof abi t) m (store_value abi t off v m).
Proof.
  intros Hv H0 Hin.
  destruct t as [n|n|c r], v as [xs|cols]; simpl in Hv; try contradiction.
  - destruct Hv as [Hlen _]. destruct (Habi n) as (_ & _ & Hfit).
    simpl in *. unfold float_size in *.
    eapply same_outside_weaken; [| |apply store_vec_outside];
      unfold float_size; lia.
  - destruct Hv as [Hlen _]. simpl in *. unfold float_size in *.
    eapply same_outside_weaken; [| |apply store_vec_outside];
      unfold float_size; lia.
  - destruct Hv as [Hlen Hcols]. destruct (Habi r) as (_ & _ & Hfit).
    rewrite sizeof_matrix in * by assumption.
    simpl store_value. rewrite <- Hlen in *.
    rewrite Z.mul_comm in *.
    apply store_cols_outside; auto.
    eapply Forall_impl; [|exact Hcols].
    intros col [E _]. rewrite E. lia.
Qed.

Lemma load_value_outside (lo hi : Z) (m m' : list byte) (t : ctype)
    (off : Z) :
  same_outside lo hi m m' ->
  0 <= off -> off + sizeof abi t <= lo \/ hi <= off ->
  load_value abi t off m = load_value abi t off m'.
Proof.
  intros H H0 Hdisj. destruct t as [n|n|c r]; simpl load_value.
  - destruct (Habi n) as (_ & _ & Hfit). simpl in Hdisj. f_equal.
    apply (load_vec_outside lo hi); auto; lia.
  - simpl in Hdisj. f_equal.
    apply (load_vec_outside lo hi); auto; lia.
  - destruct (Habi r) as (_ & _ & Hfit).
    rewrite sizeof_matrix in Hdisj by assumption. f_equal.
    apply (load_cols_outside lo hi); auto; lia.
Qed.

Lemma load_value_store_value (t : ctype) (v : value) (off : Z)
    (m : list byte) :
  has_type t v ->
  0 <= off -> off + sizeof abi t <= Z.of_nat (length m) ->
  load_value abi t off (store_value abi t off v m) = v.
Proof.
  intros Hv H0 Hin.
  destruct t as [n|n|c r], v as [xs|cols]; simpl in Hv; try contradiction.
  - destruct Hv as [Hlen Hxs]. destruct (Habi n) as (_ & _ & Hfit).
    simpl in *. f_equal. rewrite <- Hlen in *.
    apply load_vec_store_vec; auto; lia.
  - destruct Hv as [Hlen Hxs]. simpl in *. f_equal. rewrite <- Hlen in *.
    apply load_vec_store_vec; auto; lia.
  - destruct Hv as [Hlen Hcols]. destruct (Habi r) as (_ & _ & Hfit).
    rewrite sizeof_matrix in Hin by assumption.
    simpl. f_equal. rewrite <- Hlen in *.
    apply load_cols_store_cols; auto; lia.
Qed.

(** Writing the fields from a cursor on changes nothing before it, nor
    after the end of the last field. *)
Lemma store_fields_outside (fs : struct_decl) :
  forall vs cur m,
    Forall2 has_type (map snd fs) vs ->
    0 <= cur -> end_from abi cur fs <= Z.of_nat (length m) ->
    same_outside cur (end_from abi cur fs) m (store_fields abi cur fs vs m).
Proof.
  induction fs as [|[x t] rest IH]; intros vs cur m Hvs H0 Hin;
    inversion Hvs as [|? v ? vs' Hv Hvs']; subst; simpl in *.
  - apply same_outside_refl.
  - pose proof (align_up_ge cur _ (alignof_pos abi Habi t)) as Hoff.
    pose proof (end_from_ge abi Habi rest
                  (align_up cur (alignof abi t) + sizeof abi t)) as Hend.
    pose proof (sizeof_nonneg abi Habi t) as Hsz.
    pose proof (store_value_outside t v (align_up cur (alignof abi t)) m Hv
                  ltac:(lia) ltac:(lia)) as Hst.
    eapply same_outside_trans.
    + eapply same_outside_weaken; [| |exact Hst]; lia.
    + destruct Hst as [L _].
      eapply same_outside_weaken; [| |apply IH]; auto; lia.
Qed.

Lemma load_fields_store_fields (fs : struct_decl) :
  forall vs cur m,
    Forall2 has_type (map snd fs) vs ->
    0 <= cur -> end_from abi cur fs <= Z.of_nat (length m) ->
    load_fields abi cur fs (store_fields abi cur fs vs m) = vs.
Proof.
  induction fs as [|[x t] rest IH]; intros vs cur m Hvs H0 Hin;
    inversion Hvs as [|? v ? vs' Hv Hvs']; subst; simpl in *.
  - reflexivity.
  - pose proof (align_up_ge cur _ (alignof_pos abi Habi t)) as Hoff.
    pose proof (end_from_ge abi Habi rest
                  (align_up cur (alignof abi t) + sizeof abi t)) as Hend.
    pose proof (sizeof_nonneg abi Habi t) as Hsz.
    pose proof (store_value_outside t v (align_up cur (alignof abi t)) m Hv
                  ltac:(lia) ltac:(lia)) as [L _].
    f_equal.
    + rewrite <- (load_value_outside
                   (align_up cur (alignof abi t) + sizeof abi t)
                   (end_from abi (align_up cur (alignof abi t) + sizeof abi t)
                      rest)
                   (store_value abi t (align_up cur (alignof abi t)) v m)).
      * apply load_value_store_value; auto; lia.
      * apply store_fields_outside; auto; lia.
      * lia.
      * lia.
    + apply IH; auto; lia.
Qed.

(** A record read back from the object it was written to is the record
    written, whatever the object held before. *)
Lemma load_struct_store_struct (fs : struct_decl) (vs : list value)
    (m : list byte) :
  Forall2 has_type (map snd fs) vs ->
  struct_size abi fs <= Z.of_nat (length m) ->
  load_struct abi fs (store_struct abi fs vs m) = vs.
Proof.
  intros Hvs Hm. apply load_fields_store_fields; auto; [lia|].
  pose proof (struct_size_ge_end abi fs). lia.
Qed.

(** Writing a record keeps the size of the object and every byte after the
    last field. *)
Lemma store_struct_outside (fs : struct_decl) (vs : list value)
    (m : list byte) :
  Forall2 has_type (map snd fs) vs ->
  struct_size abi fs <= Z.of_nat (length m) ->
  same_outside 0 (end_from abi 0 fs) m (store_struct abi fs vs m).
Proof.
  intros Hvs Hm. apply store_fields_outside; auto; [lia|].
  pose proof (struct_size_ge_end abi fs). lia.
Qed.

End WellFormed.

End MemoryFacts.

(** * The header *)

Import CEnum CLayout Memory ShaderTypes.
Import CEnumFacts CLayoutFacts MemoryFacts.

(** Unfolds the layout of a record of the header down to the sizes and
    alignments of the vectors. *)
Ltac layout :=
  cbv [offsetof offsets struct_size struct_align padding field_names
       AAPLVertex AAPLUniforms vector_float3 packed_float2
       matrix_float4x4 matrix_float3x3
       offsets_from end_from fold_right map fst snd alignof sizeof
       float_align].

(** ** Records *)

(** In any layout that respects C's rule on sizes, a 16-byte aligned
    [position] pushes [texcoord] to offset 16 or beyond: 12 is not a
    possible offset. *)
Lemma AAPLVertex_texcoord_after_position (abi : vector_abi) :
  wf_abi abi -> vec_align abi 3 = 16 ->
  exists off,
    offsetof abi AAPLVertex "texcoord" = Some off /\ 16 <= off.
Proof.
  intros Habi Ha3. destruct (Habi 3%nat) as (_ & [k Hk] & Hfit).
  rewrite Ha3 in Hk. unfold float_size in Hfit.
  eexists. split.
  - layout. rewrite Ha3. simpl CEnum.assoc. reflexivity.
  - change (align_up 0 16) with 0.
    pose proof (align_up_ge (vec_size abi 3) 4 ltac:(lia)). lia.
Qed.

(** The offset 12 is that of a layout in which the 3-float vector keeps its
    12 bytes of data and is nevertheless aligned to 16. *)
Example AAPLVertex_unpadded3 :
  offsets unpadded3 AAPLVertex = [("position", 0); ("texcoord", 12)] /\
  struct_size unpadded3 AAPLVertex = 32 /\
  ~ wf_abi unpadded3.
Proof.
  split; [reflexivity|]. split; [reflexivity|].
  intros H. destruct (H 3%nat) as (_ & [k Hk] & _).
  change (12 = k * 16) in Hk. lia.
Qed.

(** C1, as stated, fails on the vectors of the simd library: [position] is
    16-byte aligned there, and [texcoord] is not at offset 12. *)
Lemma AAPLVertex_texcoord_not_at_12 :
  alignof simd vector_float3 = 16 /\
  sizeof simd packed_float2 = 8 /\
  alignof simd packed_float2 = 4 /\
  ~ (offsetof simd AAPLVertex "position" = Some 0 /\
     offsetof simd AAPLVertex "texcoord" = Some 12 /\
     struct_size simd AAPLVertex = 32).
Proof.
  repeat split; try reflexivity.
  intros (_ & H & _). vm_compute in H. discriminate H.
Qed.

(** C1, amended: the fields of [AAPLVertex] are [position], then
    [texcoord]; [texcoord] is a tightly packed pair of floats (8 bytes,
    aligned as one float); where a 3-float vector is 16-byte aligned and, as
    a C type must, occupies 16 bytes, [position] is at offset 0, [texcoord]
    at offset 16, and the record is 32 bytes. *)
Theorem AAPLVertex_layout (abi : vector_abi) :
  vec_align abi 3 = 16 -> vec_size abi 3 = 16 ->
  field_names AAPLVertex = ["position"; "texcoord"] /\
  sizeof abi packed_float2 = 2 * float_size /\
  alignof abi packed_float2 = float_align /\
  offsetof abi AAPLVertex "position" = Some 0 /\
  offsetof abi AAPLVertex "texcoord" = Some 16 /\
  struct_size abi AAPLVertex = 32.
Proof.
  intros Ha3 Hs3. layout. rewrite Ha3, Hs3.
  repeat split; reflexivity.
Qed.

Lemma AAPLVertex_layout_simd :
  field_names AAPLVertex = ["position"; "texcoord"] /\
  sizeof simd packed_float2 = 2 * float_size /\
  alignof simd packed_float2 = float_align /\
  offsetof simd AAPLVertex "position" = Some 0 /\
  offsetof simd AAPLVertex "texcoord" = Some 16 /\
  struct_size simd AAPLVertex = 32.
Proof.
  apply (AAPLVertex_layout simd); reflexivity.
Defined.

(** C2: the fields of [AAPLUniforms] are [cameraPos], [modelMatrix],
    [modelViewProjectionMatrix], [normalMatrix] and lie in memory in that
    order; [cameraPos] is at offset 0; where a 4-float vector occupies its
    16 bytes a 4x4 matrix occupies 64 bytes, and where a 3-float column is
    padded to 16 bytes the 3x3 matrix occupies 48 bytes. *)
Theorem AAPLUniforms_fields (abi : vector_abi) :
  wf_abi abi -> vec_size abi 4 = 16 -> vec_size abi 3 = 16 ->
  field_names AAPLUniforms
  = ["cameraPos"; "modelMatrix"; "modelViewProjectionMatrix";
     "normalMatrix"] /\
  (exists o1 o2 o3,
      offsets abi AAPLUniforms
      = [("cameraPos", 0); ("modelMatrix", o1);
         ("modelViewProjectionMatrix", o2); ("normalMatrix", o3)] /\
      0 < o1 /\ o1 < o2 /\ o2 < o3) /\
  offsetof abi AAPLUniforms "cameraPos" = Some 0 /\
  sizeof abi matrix_float4x4 = 64 /\
  sizeof abi matrix_float3x3 = 48.
Proof.
  intros Habi Hs4 Hs3.
  assert (H44 : sizeof abi matrix_float4x4 = 64).
  { unfold matrix_float4x4. rewrite sizeof_matrix, Hs4 by assumption.
    reflexivity. }
  assert (H33 : sizeof abi matrix_float3x3 = 48).
  { unfold matrix_float3x3. rewrite sizeof_matrix, Hs3 by assumption.
    reflexivity. }
  assert (H0 : align_up 0 (vec_align abi 3) = 0).
  { apply (align_up_multiple 0), (Habi 3%nat). }
  pose proof (alignof_pos abi Habi matrix_float4x4) as Hp4.
  pose proof (alignof_pos abi Habi matrix_float3x3) as Hp3.
  split; [reflexivity|]. split; [|split; [|split; assumption]].
  - unfold offsets, AAPLUniforms. cbn [offsets_from].
    fold matrix_float4x4 matrix_float3x3. rewrite H44.
    cbn [alignof sizeof vector_float3]. rewrite H0, Hs3.
    do 3 eexists. split; [reflexivity|].
    fold (alignof abi matrix_float4x4). fold (alignof abi matrix_float3x3).
    match goal with
    | |- _ < ?a /\ ?a < ?b /\ ?b < ?c =>
        pose proof (align_up_ge (0 + 16) _ Hp4);
        pose proof (align_up_ge (a + 64) _ Hp4);
        pose proof (align_up_ge (b + 64) _ Hp3)
    end.
    lia.
  - unfold offsetof, offsets, AAPLUniforms. cbn [offsets_from].
    cbn [alignof vector_float3]. rewrite H0. reflexivity.
Qed.

Lemma AAPLUniforms_fields_simd :
  (wf_abi simd /\ vec_size simd 4 = 16 /\ vec_size simd 3 = 16) /\
  field_names AAPLUniforms
  = ["cameraPos"; "modelMatrix"; "modelViewProjectionMatrix";
     "normalMatrix"] /\
  (exists o1 o2 o3,
      offsets simd AAPLUniforms
      = [("cameraPos", 0); ("modelMatrix", o1);
         ("modelViewProjectionMatrix", o2); ("normalMatrix", o3)] /\
      0 < o1 /\ o1 < o2 /\ o2 < o3) /\
  offsetof simd AAPLUniforms "cameraPos" = Some 0 /\
  sizeof simd matrix_float4x4 = 64 /\
  sizeof simd matrix_float3x3 = 48.
Proof.
  split.
  - split; [exact simd_wf|split; reflexivity].
  - apply (AAPLUniforms_fields simd simd_wf); reflexivity.
Defined.

(** C9: where 3-float and 4-float vectors occupy 16 bytes and are 16-byte
    aligned, the fields of [AAPLUniforms] are at offsets 0, 16, 80 and 144
    ([cameraPos] fills a 16-byte slot) and the record is 192 bytes, so that
    an array of [AAPLNumShapes] records is 3072 bytes. *)
Theorem AAPLUniforms_layout (abi : vector_abi) :
  vec_size abi 3 = 16 -> vec_align abi 3 = 16 ->
  vec_size abi 4 = 16 -> vec_align abi 4 = 16 ->
  offsetof abi AAPLUniforms "cameraPos" = Some 0 /\
  offsetof abi AAPLUniforms "modelMatrix" = Some 16 /\
  offsetof abi AAPLUniforms "modelViewProjectionMatrix" = Some 80 /\
  offsetof abi AAPLUniforms "normalMatrix" = Some 144 /\
  struct_size abi AAPLUniforms = 192 /\
  AAPLNumShapes * struct_size abi AAPLUniforms = 3072.
Proof.
  intros Hs3 Ha3 Hs4 Ha4. layout. rewrite Hs3, Ha3, Hs4, Ha4.
  repeat split; reflexivity.
Qed.

Lemma AAPLUniforms_layout_simd :
  offsetof simd AAPLUniforms "cameraPos" = Some 0 /\
  offsetof simd AAPLUniforms "modelMatrix" = Some 16 /\
  offsetof simd AAPLUniforms "modelViewProjectionMatrix" = Some 80 /\
  offsetof simd AAPLUniforms "normalMatrix" = Some 144 /\
  struct_size simd AAPLUniforms = 192 /\
  AAPLNumShapes * struct_size simd AAPLUniforms = 3072.
Proof.
  apply (AAPLUniforms_layout simd); reflexivity.
Defined.

(** ** Constants and registries *)

(** C4: the maximum number of shapes is 16. *)
Theorem AAPLNumShapes_is_16 : AAPLNumShapes = 16.
Proof. reflexivity. Qed.

(** C5: the top-level buffer indices are vertices = 0 and uniforms = 1. *)
Theorem AAPLBufferIndex_values :
  values AAPLBufferIndex
  = [("AAPLBufferIndexVertices", 0); ("AAPLBufferIndexUniforms", 1)] /\
  value_of AAPLBufferIndex "AAPLBufferIndexVertices" = Some 0 /\
  value_of AAPLBufferIndex "AAPLBufferIndexUniforms" = Some 1.
Proof. repeat split. Qed.

(** C6: the texture registry has exactly one identifier, base color, and
    its value is 0. *)
Theorem AAPLTextureIndex_values :
  names AAPLTextureIndex = ["AAPLTextureIndexBaseColor"] /\
  length AAPLTextureIndex = 1%nat /\
  value_of AAPLTextureIndex "AAPLTextureIndexBaseColor" = Some 0.
Proof. repeat split. Qed.

(** C7: [AAPLVertexBufferIndexArgument] is the first enumerator of
    [AAPLVertexBufferIndex], it has no initializer, and its value is 0. *)
Theorem AAPLVertexBufferIndexArgument_value :
  hd_error AAPLVertexBufferIndex
  = Some ("AAPLVertexBufferIndexArgument", None) /\
  value_of AAPLVertexBufferIndex "AAPLVertexBufferIndexArgument" = Some 0.
Proof. split; reflexivity. Qed.

(** The declaration of the argument-buffer identifiers is a run of four
    enumerators without initializer, followed by one with the
    initializer 50. *)
Lemma AAPLArgumentBufferBufferID_shape :
  implicit (firstn 4 AAPLArgumentBufferBufferID) /\
  AAPLArgumentBufferBufferID
  = firstn 4 AAPLArgumentBufferBufferID
    ++ [("AAPLArgumentBufferIDVertexNumBuffer", Some 50)].
Proof.
  split; [|reflexivity]. repeat constructor.
Qed.

(** C3: the argument-buffer identifiers are ICB = 0, uniform buffer = 1,
    depth = 2, vertex buffer = 3 and vertex-count buffer = 50; the first
    four are numbered consecutively from 0, and the fifth is 50 and not 4,
    the value it would take without its initializer. *)
Theorem AAPLArgumentBufferBufferID_values :
  values AAPLArgumentBufferBufferID
  = [("AAPLArgumentBufferIDICB", 0);
     ("AAPLArgumentBufferIDUniformBuffer", 1);
     ("AAPLArgumentBufferIDDepth", 2);
     ("AAPLArgumentBufferIDVertexBuffer", 3);
     ("AAPLArgumentBufferIDVertexNumBuffer", 50)] /\
  numbers (firstn 4 AAPLArgumentBufferBufferID) = zseq 0 4 /\
  value_of AAPLArgumentBufferBufferID "AAPLArgumentBufferIDVertexNumBuffer"
  = Some 50 /\
  value_of (firstn 4 AAPLArgumentBufferBufferID
            ++ [("AAPLArgumentBufferIDVertexNumBuffer", None)])
    "AAPLArgumentBufferIDVertexNumBuffer"
  = Some 4.
Proof.
  destruct AAPLArgumentBufferBufferID_shape as [Himp Happ].
  split; [reflexivity|]. split; [|split].
  - unfold numbers, values. now rewrite implicit_values_from.
  - reflexivity.
  - unfold value_of, values. rewrite values_from_app by assumption.
    reflexivity.
Qed.

(** C10: in each of the four registries the values of the enumerators are
    pairwise distinct and not negative; among the argument-buffer
    identifiers, 50 is none of the values 0 to 3 numbered before it. *)
Theorem registries_distinct_nonnegative :
  Forall (fun d => NoDup (numbers d) /\ Forall (Z.le 0) (numbers d))
    registries /\
  numbers AAPLArgumentBufferBufferID = zseq 0 4 ++ [50] /\
  ~ In 50 (zseq 0 4).
Proof.
  assert (Hfresh : ~ In 50 (zseq 0 4)) by (rewrite in_zseq; lia).
  assert (Harg : NoDup (numbers AAPLArgumentBufferBufferID)).
  { change (NoDup (zseq 0 4 ++ [50])). apply NoDup_app.
    - apply NoDup_zseq.
    - repeat constructor. simpl. tauto.
    - intros v Hv [<-|[]]. exact (Hfresh Hv). }
  split; [|split; [reflexivity|exact Hfresh]].
  unfold registries.
  repeat (apply Forall_cons; [split|]); try apply Forall_nil;
    try exact Harg;
    repeat constructor; simpl; intuition lia.
Qed.

(** ** Byte representation *)

Lemma vertex_fields_typed (v : vertex) :
  vertex_ok v -> Forall2 has_type (map snd AAPLVertex) (vertex_fields v).
Proof.
  destruct v as [[[x y] z] [s t]]. intros [Hp Ht].
  constructor; [split; [reflexivity|exact Hp]|].
  constructor; [split; [reflexivity|exact Ht]|].
  constructor.
Qed.

Lemma vertex_of_vertex_fields (v : vertex) :
  vertex_of_fields (vertex_fields v) = Some v.
Proof. destruct v as [[[x y] z] [s t]]. reflexivity. Qed.

Lemma float3_typed (c : float3) :
  Forall is_float32 (list3 c) ->
  length (list3 c) = 3%nat /\ Forall is_float32 (list3 c).
Proof. destruct c as [[x y] z]. split; [reflexivity|assumption]. Qed.

Lemma float4_typed (c : float4) :
  Forall is_float32 (list4 c) ->
  length (list4 c) = 4%nat /\ Forall is_float32 (list4 c).
Proof. destruct c as [[[x y] z] w]. split; [reflexivity|assumption]. Qed.

Lemma float3x3_typed (a : float3x3) :
  float3x3_ok a -> has_type matrix_float3x3 (VMat (cols3 a)).
Proof.
  destruct a as [[c0 c1] c2]. unfold float3x3_ok. simpl. intros H.
  split; [reflexivity|].
  repeat match goal with
         | H : Forall _ (_ :: _) |- _ => inversion_clear H
         end.
  repeat constructor; apply float3_typed; assumption.
Qed.

Lemma float4x4_typed (a : float4x4) :
  float4x4_ok a -> has_type matrix_float4x4 (VMat (cols4 a)).
Proof.
  destruct a as [[[c0 c1] c2] c3]. unfold float4x4_ok. simpl. intros H.
  split; [reflexivity|].
  repeat match goal with
         | H : Forall _ (_ :: _) |- _ => inversion_clear H
         end.
  repeat constructor; apply float4_typed; assumption.
Qed.

Lemma uniforms_fields_typed (u : uniforms) :
  uniforms_ok u -> Forall2 has_type (map snd AAPLUniforms) (uniforms_fields u).
Proof.
  intros (Hc & Hm & Hmvp & Hn). unfold uniforms_fields.
  constructor; [exact (float3_typed (cameraPos u) Hc)|].
  constructor; [now apply float4x4_typed|].
  constructor; [now apply float4x4_typed|].
  constructor; [now apply float3x3_typed|].
  constructor.
Qed.

Lemma uniforms_of_uniforms_fields (u : uniforms) :
  uniforms_of_fields (uniforms_fields u) = Some u.
Proof.
  destruct u as [[[x y] z] m mvp n].
  destruct m as [[[[[[? ?] ?] ?] [[[? ?] ?] ?]] [[[? ?] ?] ?]] [[[? ?] ?] ?]].
  destruct mvp
    as [[[[[[? ?] ?] ?] [[[? ?] ?] ?]] [[[? ?] ?] ?]] [[[? ?] ?] ?]].
  destruct n as [[[[? ?] ?] [[? ?] ?]] [[? ?] ?]].
  reflexivity.
Qed.

(** The floats of the two records of the property: the bit patterns stand
    for 1, 2, 3, 0.25, 0.75 and 0, and each is a 32-bit pattern. *)
Lemma example_floats :
  map b32_value [f_0; f_1; f_2; f_3; f_0_25; f_0_75]
  = [Some 0%Q; Some 1%Q; Some 2%Q; Some 3%Q; Some (1 # 4)%Q; Some (3 # 4)%Q]
  /\ Forall is_float32 [f_0; f_1; f_2; f_3; f_0_25; f_0_75].
Proof.
  split; [reflexivity|].
  repeat constructor; unfold is_float32; discriminate.
Qed.

Lemma vertex_123_ok : vertex_ok vertex_123.
Proof.
  destruct example_floats as [_ H].
  rewrite Forall_forall in H.
  split; repeat constructor; apply H; simpl; tauto.
Qed.

Lemma uniforms_identity_ok : uniforms_ok uniforms_identity.
Proof.
  destruct example_floats as [_ H].
  rewrite Forall_forall in H.
  repeat split; repeat constructor; apply H; simpl; tauto.
Qed.

Lemma struct_size_nonneg (abi : vector_abi) (fs : struct_decl) :
  wf_abi abi -> 0 <= struct_size abi fs.
Proof.
  intros Habi. pose proof (struct_size_ge_end abi fs).
  pose proof (end_from_ge abi Habi fs 0). lia.
Qed.

(** C8: in every layout that respects C's rules, a vertex written into an
    object of the size of [AAPLVertex] and read back from its bytes is the
    vertex written, and so for the uniforms and [AAPLUniforms], whatever the
    bytes of the object were before (they remain in the padding) and without
    changing its size; in particular for the vertex with position (1, 2, 3)
    and texcoord (0.25, 0.75) and for the uniforms with identity matrices
    (see [example_floats] for what their bit patterns stand for). *)
Theorem records_roundtrip (abi : vector_abi) (v : vertex) (u : uniforms)
    (mv mu : list byte) (pad : byte) :
  wf_abi abi ->
  vertex_ok v -> uniforms_ok u ->
  Z.of_nat (length mv) = struct_size abi AAPLVertex ->
  Z.of_nat (length mu) = struct_size abi AAPLUniforms ->
  (read_vertex abi (write_vertex abi v mv) = Some v /\
   length (write_vertex abi v mv) = length mv) /\
  (read_uniforms abi (write_uniforms abi u mu) = Some u /\
   length (write_uniforms abi u mu) = length mu) /\
  read_vertex abi (vertex_bytes abi pad vertex_123) = Some vertex_123 /\
  read_uniforms abi (uniforms_bytes abi pad uniforms_identity)
  = Some uniforms_identity.
Proof.
  intros Habi Hv Hu Hmv Hmu.
  assert (Vertex : forall w m,
             vertex_ok w ->
             Z.of_nat (length m) = struct_size abi AAPLVertex ->
             read_vertex abi (write_vertex abi w m) = Some w /\
             length (write_vertex abi w m) = length m).
  { intros w m Hw Hm. apply vertex_fields_typed in Hw.
    unfold read_vertex, write_vertex. split.
    - rewrite load_struct_store_struct by (auto; lia).
      apply vertex_of_vertex_fields.
    - symmetry.
      apply (store_struct_outside abi Habi AAPLVertex _ m Hw). lia. }
  assert (Uniforms : forall w m,
             uniforms_ok w ->
             Z.of_nat (length m) = struct_size abi AAPLUniforms ->
             read_uniforms abi (write_uniforms abi w m) = Some w /\
             length (write_uniforms abi w m) = length m).
  { intros w m Hw Hm. apply uniforms_fields_typed in Hw.
    unfold read_uniforms, write_uniforms. split.
    - rewrite load_struct_store_struct by (auto; lia).
      apply uniforms_of_uniforms_fields.
    - symmetry.
      apply (store_struct_outside abi Habi AAPLUniforms _ m Hw). lia. }
  split; [now apply Vertex|]. split; [now apply Uniforms|]. split.
  - apply Vertex; [exact vertex_123_ok|].
    rewrite repeat_length. apply Z2Nat.id. now apply struct_size_nonneg.
  - apply Uniforms; [exact uniforms_identity_ok|].
    rewrite repeat_length. apply Z2Nat.id. now apply struct_size_nonneg.
Qed.

Lemma records_roundtrip_simd :
  read_vertex simd (write_vertex simd vertex_123 (repeat Byte.xff 32))
  = Some vertex_123 /\
  read_uniforms simd
    (write_uniforms simd uniforms_identity (repeat Byte.xff 192))
  = Some uniforms_identity.
Proof.
  destruct (records_roundtrip simd vertex_123 uniforms_identity
              (repeat Byte.xff 32) (repeat Byte.xff 192) Byte.x00
              simd_wf vertex_123_ok uniforms_identity_ok
              eq_refl eq_refl) as ((Hv & _) & (Hu & _) & _).
  split; [exact Hv|exact Hu].
Defined.

(** * Members, arrays and bytes *)

Module ObjectsFacts.

Import CEnum CLayout Memory Objects.
Import CLayoutFacts MemoryFacts.

Lemma length_load_bytes (off : Z) (n : nat) (m : list byte) :
  0 <= off -> off + Z.of_nat n <= Z.of_nat (length m) ->
  length (load_bytes off n m) = n.
Proof.
  intros H0 Hin. unfold load_bytes.
  rewrite length_firstn, length_skipn. lia.
Qed.

(** The layout gives an offset to every declared field, and to no other
    name. *)
Lemma offset_of_declared (abi : vector_abi) (fs : struct_decl) (x : string)
    (t : ctype) :
  forall cur,
    type_of fs x = Some t ->
    exists off, assoc x (offsets_from abi cur fs) = Some off.
Proof.
  induction fs as [|[y u] rest IH]; intros cur; simpl.
  - discriminate.
  - destruct (String.eqb x y); [eauto|apply IH].
Qed.

Lemma offset_of_undeclared (abi : vector_abi) (fs : struct_decl)
    (x : string) :
  forall cur,
    type_of fs x = None -> assoc x (offsets_from abi cur fs) = None.
Proof.
  induction fs as [|[y u] rest IH]; intros cur; simpl.
  - reflexivity.
  - destruct (String.eqb x y); [discriminate|apply IH].
Qed.

Section WellFormed.

Variable abi : vector_abi.
Hypothesis Habi : wf_abi abi.

(** A field placed from the cursor [cur] starts at or after it, at a
    multiple of its alignment, and ends before the end of the fields. *)
Lemma field_from_bounds (fs : struct_decl) :
  forall cur x off t,
    assoc x (offsets_from abi cur fs) = Some off ->
    type_of fs x = Some t ->
    cur <= off /\ (alignof abi t | off) /\
    off + sizeof abi t <= end_from abi cur fs.
Proof.
  induction fs as [|[y u] rest IH]; intros cur x off t; simpl.
  - discriminate.
  - pose proof (align_up_ge cur _ (alignof_pos abi Habi u)) as Hge.
    pose proof (sizeof_nonneg abi Habi u) as Hsz.
    destruct (String.eqb x y).
    + intros [= <-] [= <-]. split; [assumption|]. split.
      * apply align_up_divide.
      * apply end_from_ge. assumption.
    + intros Hoff Ht. destruct (IH _ _ _ _ Hoff Ht) as (H1 & H2 & H3).
      split; [lia|]. split; assumption.
Qed.

(** Two fields of different names share no byte. *)
Lemma fields_from_disjoint (fs : struct_decl) :
  forall cur x y ox oy tx ty,
    x <> y ->
    assoc x (offsets_from abi cur fs) = Some ox -> type_of fs x = Some tx ->
    assoc y (offsets_from abi cur fs) = Some oy -> type_of fs y = Some ty ->
    ox + sizeof abi tx <= oy \/ oy + sizeof abi ty <= ox.
Proof.
  induction fs as [|[z u] rest IH]; intros cur x y ox oy tx ty Hxy; simpl.
  - discriminate.
  - destruct (String.eqb_spec x z) as [Hx|Hx];
      destruct (String.eqb_spec y z) as [Hy|Hy].
    + congruence.
    + intros [= <-] [= <-] Hoy Hty.
      destruct (field_from_bounds _ _ _ _ _ Hoy Hty) as (H & _). now left.
    + intros Hox Htx [= <-] [= <-].
      destruct (field_from_bounds _ _ _ _ _ Hox Htx) as (H & _). now right.
    + apply IH. assumption.
Qed.

Lemma get_elem_length (fs : struct_decl) (n i : nat) (m : list byte) :
  Z.of_nat (length m) = Z.of_nat n * struct_size abi fs ->
  (i < n)%nat ->
  Z.of_nat (length (get_elem abi fs i m)) = struct_size abi fs.
Proof.
  intros Hm Hi.
  pose proof (struct_size_ge_end abi fs) as Hend.
  pose proof (end_from_ge abi Habi fs 0) as H0.
  unfold get_elem, elem_offset. rewrite length_load_bytes; nia.
Qed.

End WellFormed.

End ObjectsFacts.

Import Objects Buffers ObjectsFacts.

(** ** Members *)

(** X1: assigning to a member of a record: the member then reads as the value
    assigned, every other member reads as it did before, and the object
    keeps its size.  For [AAPLUniforms] this is what allows the per-frame
    [cameraPos] to be rewritten without touching the per-mesh matrices. *)
Theorem store_field_load_field (abi : vector_abi) (fs : struct_decl)
    (x : string) (t : ctype) (v : value) (m : list byte) :
  wf_abi abi ->
  type_of fs x = Some t -> has_type t v ->
  struct_size abi fs <= Z.of_nat (length m) ->
  load_field abi fs x (store_field abi fs x v m) = Some v /\
  (forall y, y <> x ->
     load_field abi fs y (store_field abi fs x v m) = load_field abi fs y m) /\
  length (store_field abi fs x v m) = length m.
Proof.
  intros Habi Ht Hv Hm.
  pose proof (struct_size_ge_end abi fs) as Hend.
  unfold load_field, store_field. rewrite Ht.
  destruct (offsetof abi fs x) as [ox|] eqn:Hox.
  - destruct (field_from_bounds abi Habi fs 0 x ox t Hox Ht) as (H0 & _ & Hin).
    pose proof (store_value_outside abi Habi t v ox m Hv H0 ltac:(lia))
      as Hout.
    split; [|split].
    + f_equal. apply load_value_store_value; auto. lia.
    + intros y Hy.
      destruct (offsetof abi fs y) as [oy|] eqn:Hoy; [|reflexivity].
      destruct (type_of fs y) as [ty|] eqn:Hty; [|reflexivity].
      f_equal. symmetry.
      destruct (field_from_bounds abi Habi fs 0 y oy ty Hoy Hty)
        as (H0y & _ & _).
      apply (load_value_outside abi Habi ox (ox + sizeof abi t)); auto.
      destruct (fields_from_disjoint abi Habi fs 0 x y ox oy t ty
                  ltac:(congruence) Hox Ht Hoy Hty); lia.
    + symmetry. apply Hout.
  - destruct (offset_of_declared abi fs x t 0 Ht) as [off Hoff].
    unfold offsetof, offsets in Hox. congruence.
Qed.

Lemma store_field_load_field_simd :
  let m := repeat Byte.x00 192 in
  let v := VVec [f_1; f_2; f_3] in
  load_field simd AAPLUniforms "cameraPos"
    (store_field simd AAPLUniforms "cameraPos" v m) = Some v /\
  load_field simd AAPLUniforms "normalMatrix"
    (store_field simd AAPLUniforms "cameraPos" v m)
  = load_field simd AAPLUniforms "normalMatrix" m.
Proof.
  intros m v.
  assert (Hv : has_type vector_float3 v).
  { split; [reflexivity|].
    repeat constructor; unfold is_float32; discriminate. }
  destruct (store_field_load_field simd AAPLUniforms "cameraPos"
              vector_float3 v m simd_wf eq_refl Hv)
    as (Hsame & Hother & _).
  - vm_compute. discriminate.
  - split; [exact Hsame|]. apply Hother. discriminate.
Defined.

(** X2: every member of a record lies inside the record at a multiple of its
    alignment, and the size of the record is a multiple of the alignment of
    the record; so, where the alignment of the record is a multiple of that
    of the member, the member is aligned in every element of an array. *)
Theorem field_aligned_in_record (abi : vector_abi) (fs : struct_decl)
    (x : string) (off : Z) (t : ctype) :
  wf_abi abi ->
  offsetof abi fs x = Some off -> type_of fs x = Some t ->
  0 <= off /\
  (alignof abi t | off) /\
  off + sizeof abi t <= struct_size abi fs /\
  (struct_align abi fs | struct_size abi fs) /\
  ((alignof abi t | struct_align abi fs) ->
   forall i, (alignof abi t | elem_offset abi fs i + off)).
Proof.
  intros Habi Hoff Ht.
  destruct (field_from_bounds abi Habi fs 0 x off t Hoff Ht)
    as (H0 & Hdiv & Hin).
  pose proof (struct_size_ge_end abi fs) as Hend.
  assert (Hsize : (struct_align abi fs | struct_size abi fs))
    by apply align_up_divide.
  repeat split; try assumption; try lia.
  intros Hal i. apply Z.divide_add_r; [|assumption].
  unfold elem_offset. apply Z.divide_mul_r.
  now apply (Z.divide_trans _ (struct_align abi fs)).
Qed.

Lemma field_aligned_in_record_simd :
  (alignof simd matrix_float3x3 | 144) /\
  144 + sizeof simd matrix_float3x3 <= struct_size simd AAPLUniforms /\
  (alignof simd matrix_float3x3 | elem_offset simd AAPLUniforms 15 + 144).
Proof.
  destruct (field_aligned_in_record simd AAPLUniforms "normalMatrix" 144
              matrix_float3x3 simd_wf eq_refl eq_refl)
    as (_ & Hdiv & Hin & _ & Harr).
  split; [exact Hdiv|]. split; [exact Hin|].
  apply (Harr (Z.divide_refl 16) 15%nat).
Defined.

(** ** Arrays of records *)

(** X3: in an array of [n] records, assigning a record to element [i] makes
    element [i] read as that record, leaves every byte of every other
    element as it was, and keeps the size of the array.  With
    [n = AAPLNumShapes] this is the per-shape array of uniforms: the
    uniforms of one shape are rewritten without disturbing another's. *)
Theorem set_elem_read_elem (abi : vector_abi) (fs : struct_decl)
    (vs : list value) (n i j : nat) (m : list byte) :
  wf_abi abi ->
  Forall2 has_type (map snd fs) vs ->
  Z.of_nat (length m) = Z.of_nat n * struct_size abi fs ->
  (i < n)%nat -> (j < n)%nat ->
  read_elem abi fs i (set_elem abi fs i vs m) = vs /\
  (j <> i -> get_elem abi fs j (set_elem abi fs i vs m) = get_elem abi fs j m) /\
  length (set_elem abi fs i vs m) = length m.
Proof.
  intros Habi Hvs Hm Hi Hj.
  pose proof (struct_size_nonneg abi fs Habi) as Hsz.
  pose proof (get_elem_length abi Habi fs n i m Hm Hi) as Hlen.
  pose proof (store_struct_outside abi Habi fs vs (get_elem abi fs i m) Hvs
                ltac:(lia)) as [Hlen' _].
  set (e := store_struct abi fs vs (get_elem abi fs i m)) in *.
  assert (Hoff : 0 <= elem_offset abi fs i) by (unfold elem_offset; nia).
  assert (Hfit : elem_offset abi fs i + Z.of_nat (length e)
                 <= Z.of_nat (length m))
    by (unfold elem_offset; nia).
  assert (He : Z.to_nat (struct_size abi fs) = length e) by lia.
  unfold read_elem, get_elem, set_elem. fold (get_elem abi fs i m). fold e.
  rewrite He. split; [|split].
  - rewrite load_bytes_store_bytes by assumption.
    apply load_struct_store_struct; auto. lia.
  - intros Hji. symmetry.
    apply (load_bytes_outside (elem_offset abi fs i)
             (elem_offset abi fs i + Z.of_nat (length e))).
    + now apply store_bytes_outside.
    + unfold elem_offset. nia.
    + unfold elem_offset. rewrite <- Hlen', Hlen. nia.
  - now apply length_store_bytes.
Qed.

Lemma set_elem_read_elem_simd :
  let m := repeat Byte.xff 3072 in
  let n := Z.to_nat AAPLNumShapes in
  read_elem simd AAPLUniforms 3
    (set_elem simd AAPLUniforms 3 (uniforms_fields uniforms_identity) m)
  = uniforms_fields uniforms_identity /\
  get_elem simd AAPLUniforms 15
    (set_elem simd AAPLUniforms 3 (uniforms_fields uniforms_identity) m)
  = get_elem simd AAPLUniforms 15 m.
Proof.
  intros m n.
  destruct (set_elem_read_elem simd AAPLUniforms
              (uniforms_fields uniforms_identity) n 3 15 m simd_wf
              (uniforms_fields_typed _ uniforms_identity_ok)
              eq_refl) as (Hread & Hother & _).
  - vm_compute. lia.
  - vm_compute. lia.
  - split; [exact Hread|]. apply Hother. lia.
Defined.

(** ** The bytes of a record *)



Lemma read_write_vertex (abi : vector_abi) (v : vertex) (m : list byte) :
  wf_abi abi -> vertex_ok v ->
  Z.of_nat (length m) = struct_size abi AAPLVertex ->
  read_vertex abi (write_vertex abi v m) = Some v.
Proof.
  intros Habi Hv Hm. apply vertex_fields_typed in Hv.
  unfold read_vertex, write_vertex.
  rewrite load_struct_store_struct by (auto; lia).
  apply vertex_of_vertex_fields.
Qed.

Lemma read_write_uniforms (abi : vector_abi) (u : uniforms) (m : list byte) :
  wf_abi abi -> uniforms_ok u ->
  Z.of_nat (length m) = struct_size abi AAPLUniforms ->
  read_uniforms abi (write_uniforms abi u m) = Some u.
Proof.
  intros Habi Hu Hm. apply uniforms_fields_typed in Hu.
  unfold read_uniforms, write_uniforms.
  rewrite load_struct_store_struct by (auto; lia).
  apply uniforms_of_uniforms_fields.
Qed.

(** X6: two different vertices never have the same bytes, and neither do two
    different uniforms, whatever the objects they are written to held. *)
Theorem distinct_records_distinct_bytes (abi : vector_abi)
    (v v' : vertex) (u u' : uniforms) (mv mv' mu mu' : list byte) :
  wf_abi abi ->
  vertex_ok v -> vertex_ok v' -> uniforms_ok u -> uniforms_ok u' ->
  Z.of_nat (length mv) = struct_size abi AAPLVertex ->
  Z.of_nat (length mv') = struct_size abi AAPLVertex ->
  Z.of_nat (length mu) = struct_size abi AAPLUniforms ->
  Z.of_nat (length mu') = struct_size abi AAPLUniforms ->
  (v <> v' -> write_vertex abi v mv <> write_vertex abi v' mv') /\
  (u <> u' -> write_uniforms abi u mu <> write_uniforms abi u' mu').
Proof.
  intros Habi Hv Hv' Hu Hu' Hmv Hmv' Hmu Hmu'. split.
  - intros Hne Heq. apply Hne.
    apply (f_equal (read_vertex abi)) in Heq.
    rewrite !read_write_vertex in Heq by assumption. congruence.
  - intros Hne Heq. apply Hne.
    apply (f_equal (read_uniforms abi)) in Heq.
    rewrite !read_write_uniforms in Heq by assumption. congruence.
Qed.

(** X7: the converse fails: the bytes of a record are not determined by the
    record.  With the simd vectors, two objects that hold the same vertex
    differ whenever their padding differs, so that comparing the bytes of
    two vertices does not compare the vertices. *)
Theorem vertex_bytes_not_canonical (pad pad' : byte) (v : vertex) :
  vertex_ok v -> pad <> pad' ->
  vertex_bytes simd pad v <> vertex_bytes simd pad' v /\
  read_vertex simd (vertex_bytes simd pad v) = Some v /\
  read_vertex simd (vertex_bytes simd pad' v) = Some v.
Proof.
  intros Hv Hpad. split; [|split].
  - intros Heq. apply Hpad.
    apply (f_equal (fun l => nth_error l 12)) in Heq.
    destruct v as [[[x y] z] [s t]].
    change (Some pad = Some pad') in Heq. congruence.
  - apply read_write_vertex; [exact simd_wf|assumption|reflexivity].
  - apply read_write_vertex; [exact simd_wf|assumption|reflexivity].
Qed.

Lemma distinct_records_distinct_bytes_simd :
  let v0 := {| position := (f_0, f_0, f_0); texcoord := (f_0, f_0) |} in
  let u1 := {| cameraPos := (f_1, f_0, f_0);
               modelMatrix := identity4;
               modelViewProjectionMatrix := identity4;
               normalMatrix := identity3 |} in
  write_vertex simd vertex_123 (repeat Byte.x00 32)
  <> write_vertex simd v0 (repeat Byte.xff 32) /\
  write_uniforms simd uniforms_identity (repeat Byte.x00 192)
  <> write_uniforms simd u1 (repeat Byte.x00 192).
Proof.
  intros v0 u1.
  assert (Hf : forall w, In w [f_0; f_1] -> is_float32 w)
    by (intros w [<-|[<-|[]]]; (split; [discriminate|reflexivity])).
  assert (Hv0 : vertex_ok v0)
    by (split; repeat constructor; apply Hf; simpl; tauto).
  assert (Hu1 : uniforms_ok u1)
    by (repeat split; repeat constructor; apply Hf; simpl; tauto).
  destruct (distinct_records_distinct_bytes simd vertex_123 v0
              uniforms_identity u1
              (repeat Byte.x00 32) (repeat Byte.xff 32)
              (repeat Byte.x00 192) (repeat Byte.x00 192)
              simd_wf vertex_123_ok Hv0 uniforms_identity_ok Hu1
              eq_refl eq_refl eq_refl eq_refl) as [Hv Hu].
  split; [apply Hv|apply Hu]; intros H; vm_compute in H; discriminate H.
Defined.

Lemma vertex_bytes_not_canonical_simd :
  vertex_bytes simd Byte.x00 vertex_123 <> vertex_bytes simd Byte.xff vertex_123
  /\ read_vertex simd (vertex_bytes simd Byte.x00 vertex_123)
     = read_vertex simd (vertex_bytes simd Byte.xff vertex_123).
Proof.
  destruct (vertex_bytes_not_canonical Byte.x00 Byte.xff vertex_123
              vertex_123_ok ltac:(discriminate)) as (Hne & H0 & H1).
  split; [exact Hne|]. now rewrite H0, H1.
Defined.

(** ** Vertex buffers *)

Lemma load_bytes_concat (sz : nat) (chunks : list (list byte)) :
  Forall (fun c => length c = sz) chunks ->
  forall i c,
    nth_error chunks i = Some c ->
    load_bytes (Z.of_nat i * Z.of_nat sz) sz (concat chunks) = c.
Proof.
  unfold load_bytes.
  induction 1 as [|c0 rest Hc0 _ IH]; intros [|i] c; simpl nth_error;
    try discriminate.
  - intros [= <-]. simpl.
    rewrite firstn_app, <- Hc0, firstn_all, Nat.sub_diag. simpl.
    apply app_nil_r.
  - intros Hc. simpl concat.
    replace (Z.to_nat (Z.of_nat (S i) * Z.of_nat sz))
      with (sz + Z.to_nat (Z.of_nat i * Z.of_nat sz))%nat by lia.
    rewrite skipn_app, skipn_all2 by lia. simpl.
    replace (sz + Z.to_nat (Z.of_nat i * Z.of_nat sz) - length c0)%nat
      with (Z.to_nat (Z.of_nat i * Z.of_nat sz)) by lia.
    now apply IH.
Qed.

Lemma length_concat_chunks (sz : nat) (chunks : list (list byte)) :
  Forall (fun c => length c = sz) chunks ->
  length (concat chunks) = (length chunks * sz)%nat.
Proof.
  induction 1 as [|c0 rest Hc0 _ IH]; simpl.
  - reflexivity.
  - rewrite length_app, IH, Hc0. reflexivity.
Qed.

Lemma length_vertex_bytes (abi : vector_abi) (pad : byte) (v : vertex) :
  wf_abi abi -> vertex_ok v ->
  length (vertex_bytes abi pad v) = Z.to_nat (struct_size abi AAPLVertex).
Proof.
  intros Habi Hv. apply vertex_fields_typed in Hv.
  pose proof (struct_size_nonneg abi AAPLVertex Habi) as Hsz.
  unfold vertex_bytes, write_vertex.
  destruct (store_struct_outside abi Habi AAPLVertex (vertex_fields v)
              (repeat pad (Z.to_nat (struct_size abi AAPLVertex))) Hv)
    as [Hlen _].
  - rewrite repeat_length. lia.
  - rewrite <- Hlen. apply repeat_length.
Qed.

(** X8: a vertex buffer filled with a sequence of vertices holds one record
    size per vertex, and its element [i], read as a record, is the [i]-th
    vertex of the sequence: what the shader fetches by index is what the
    C code put there. *)
Theorem vertex_buffer_index (abi : vector_abi) (pad : byte)
    (vs : list vertex) (i : nat) (v : vertex) :
  wf_abi abi -> Forall vertex_ok vs -> nth_error vs i = Some v ->
  vertex_of_fields (read_elem abi AAPLVertex i (vertex_buffer abi pad vs))
  = Some v /\
  Z.of_nat (length (vertex_buffer abi pad vs))
  = Z.of_nat (length vs) * struct_size abi AAPLVertex.
Proof.
  intros Habi Hvs Hi.
  pose proof (struct_size_nonneg abi AAPLVertex Habi) as Hsz.
  set (sz := Z.to_nat (struct_size abi AAPLVertex)).
  assert (Hchunks : Forall (fun c => length c = sz)
                      (map (vertex_bytes abi pad) vs)).
  { apply Forall_map. eapply Forall_impl; [|exact Hvs].
    intros w Hw. now apply length_vertex_bytes. }
  split.
  - unfold read_elem, get_elem, elem_offset, vertex_buffer. fold sz.
    replace (struct_size abi AAPLVertex) with (Z.of_nat sz)
      by (unfold sz; lia).
    rewrite (load_bytes_concat sz _ Hchunks i (vertex_bytes abi pad v))
      by (rewrite nth_error_map, Hi; reflexivity).
    rewrite Forall_forall in Hvs.
    apply (read_write_vertex abi v); auto.
    + apply Hvs. eapply nth_error_In. exact Hi.
    + rewrite repeat_length. lia.
  - unfold vertex_buffer.
    rewrite (length_concat_chunks sz _ Hchunks), length_map. lia.
Qed.

Lemma vertex_buffer_index_simd :
  let v0 := {| position := (f_0, f_0, f_0); texcoord := (f_0, f_0) |} in
  vertex_of_fields
    (read_elem simd AAPLVertex 1
       (vertex_buffer simd Byte.x00 [v0; vertex_123; v0]))
  = Some vertex_123 /\
  Z.of_nat (length (vertex_buffer simd Byte.x00 [v0; vertex_123; v0]))
  = 3 * struct_size simd AAPLVertex.
Proof.
  intros v0.
  assert (Hv0 : vertex_ok v0)
    by (split; repeat constructor; discriminate).
  apply (vertex_buffer_index simd Byte.x00 [v0; vertex_123; v0] 1
           vertex_123 simd_wf).
  - constructor; [exact Hv0|].
    constructor; [exact vertex_123_ok|].
    constructor; [exact Hv0|constructor].
  - reflexivity.
Defined.

(** ** Room in the argument-buffer identifiers *)

Lemma numbers_implicit_then_explicit (d : enum_decl) (x : string) (v : Z) :
  implicit d ->
  numbers (d ++ [(x, Some v)]) = zseq 0 (length d) ++ [v].
Proof.
  intros Hd. unfold numbers, values.
  rewrite values_from_app, map_app, implicit_values_from by assumption.
  reflexivity.
Qed.

(** X9: identifiers without initializer added after the vertex buffer, in front
    of the vertex-count buffer, keep the values of the registry distinct as
    long as there are at most 46 of them; the 47th takes the value 50. *)
Theorem AAPLArgumentBufferBufferID_room (more : enum_decl) :
  implicit more ->
  NoDup (numbers (firstn 4 AAPLArgumentBufferBufferID ++ more
                  ++ skipn 4 AAPLArgumentBufferBufferID))
  <-> (length more <= 46)%nat.
Proof.
  intros Hmore. destruct AAPLArgumentBufferBufferID_shape as [Himp _].
  change (skipn 4 AAPLArgumentBufferBufferID)
    with [("AAPLArgumentBufferIDVertexNumBuffer", Some 50)].
  rewrite app_assoc, numbers_implicit_then_explicit
    by (apply Forall_app; split; assumption).
  rewrite length_app.
  change (length (firstn 4 AAPLArgumentBufferBufferID)) with 4%nat.
  split.
  - intros Hnd. apply NoDup_remove_2 in Hnd.
    rewrite app_nil_r, in_zseq in Hnd. lia.
  - intros Hlen. apply NoDup_app.
    + apply NoDup_zseq.
    + repeat constructor. simpl. tauto.
    + intros w Hw [<-|[]]. rewrite in_zseq in Hw. lia.
Qed.

Lemma AAPLArgumentBufferBufferID_room_one :
  NoDup (numbers (firstn 4 AAPLArgumentBufferBufferID
                  ++ [("AAPLArgumentBufferIDNormals", None)]
                  ++ skipn 4 AAPLArgumentBufferBufferID)).
Proof.
  apply (AAPLArgumentBufferBufferID_room
           [("AAPLArgumentBufferIDNormals", None)]).
  - repeat constructor.
  - simpl. lia.
Defined.
